(** * Infinite Adventure: the turn protocol of [App.tsx] and the backend
    wrappers of [services/gemini.ts], as a shallow embedding.

    The React state hooks of [App] become the fields of one record
    [AppState]; every handler is a function from the state (and the values
    the browser or the backend hands it) to the new state and the backend
    calls it starts.  A JS [Set] of strings is a duplicate-free list in
    insertion order, which is what [Array.from] gives back. *)

From Stdlib Require Import String Ascii List ZArith NArith Bool Lia.
Import ListNotations.
Set Warnings "-register-all".
Open Scope string_scope.
Open Scope list_scope.

(** ** [types.ts] *)

Record GameState := mkGameState {
  inventory : list string;
  currentQuest : string;
  health : Z;
  location : string
}.

(** [StorySegment]; the optional [isUser] flag is read with JS
    truthiness, so [None] and [Some false] both mean a narrative segment. *)
Record StorySegment := mkSegment {
  seg_id : string;
  text : string;
  imagePrompt : option string;
  imageUrl : option string;
  choices : list string;
  isUser : option bool;
  timestamp : Z
}.

Definition is_user (s : StorySegment) : bool :=
  match isUser s with Some b => b | None => false end.

(** The object [generateStorySegment] returns when it matches the
    response schema (the fallback object does). *)
Record StoryResult := mkStoryResult {
  narrative : string;
  inventory_add : list string;
  inventory_remove : list string;
  new_quest : option string;
  image_prompt : string;
  suggested_choices : list string
}.

(** ** The JS [Set] used in [handleAction] *)

(** [set.add(x)]: appended when absent, otherwise no change. *)
Definition set_add (s : list string) (x : string) : list string :=
  if existsb (String.eqb x) s then s else s ++ [x].

(** [set.delete(x)]. *)
Definition set_delete (s : list string) (x : string) : list string :=
  filter (fun y => negb (String.eqb x y)) s.

(** [new Set(l)]. *)
Definition new_Set (l : list string) : list string :=
  fold_left set_add l [].

(** JS [a || b] for a [string | null] [a] and a string [b]: the empty
    string is falsy. *)
Definition js_or_string (a : option string) (b : string) : string :=
  match a with
  | Some s => if String.eqb s "" then b else s
  | None => b
  end.

(** The [setGameState] updater of [handleAction] (step 3). *)
Definition update_game_state (result : StoryResult) (prev : GameState)
    : GameState :=
  let newInv := new_Set (inventory prev) in
  let newInv := fold_left set_add (inventory_add result) newInv in
  let newInv := fold_left set_delete (inventory_remove result) newInv in
  {| inventory := newInv;
     currentQuest := js_or_string (new_quest result) (currentQuest prev);
     health := health prev;
     location := location prev |}.

(** ** [services/gemini.ts] *)

(** JSON values, as [JSON.parse] returns them. *)
Inductive json :=
| JNull
| JBool (b : bool)
| JNum (n : Z)
| JStr (s : string)
| JArr (l : list json)
| JObj (fields : list (string * json)).

(** The JSON object of a [StoryResult], fields in the schema's order. *)
Definition story_result_json (r : StoryResult) : json :=
  JObj [("narrative", JStr (narrative r));
        ("inventory_add", JArr (map JStr (inventory_add r)));
        ("inventory_remove", JArr (map JStr (inventory_remove r)));
        ("new_quest", match new_quest r with Some q => JStr q | None => JNull end);
        ("image_prompt", JStr (image_prompt r));
        ("suggested_choices", JArr (map JStr (suggested_choices r)))].

(** The object returned from the [catch] block of [generateStorySegment]. *)
Definition fallback_story : StoryResult :=
  {| narrative := "The mists of uncertainty cloud your vision... (AI Generation Error, please try again).";
     inventory_add := [];
     inventory_remove := [];
     new_quest := None;
     image_prompt := "A foggy void of uncertainty.";
     suggested_choices := ["Try again"] |}.

(** [history.slice(-k)] for [k > 0]. *)
Definition js_slice_neg (k : nat) {A} (l : list A) : list A :=
  skipn (length l - k) l.

(** [response.text] of a request that resolved: [undefined], the empty
    string, or a non-empty string, the last one given by what [JSON.parse]
    makes of it ([None]: it throws a [SyntaxError]). *)
Inductive ResponseText :=
| TextUndefined
| TextEmpty
| TextNonEmpty (parsed : option json).

(** How the [generateContent] call of [generateStorySegment] ends: it
    rejects (network or API error) or resolves with a response. *)
Inductive StoryResponse :=
| StoryRejected
| StoryResolved (t : ResponseText).

(** The lines of previous story put into the prompt: [history.slice(-6)]. *)
Definition story_context (history : list string) : list string :=
  js_slice_neg 6 history.

(** [generateStorySegment history userAction currentInventory currentQuest],
    given how its backend request ends. *)
Definition generateStorySegment (history : list string) (userAction : string)
    (currentInventory : list string) (currentQuest : string)
    (resp : StoryResponse) : json :=
  match resp with
  | StoryRejected => story_result_json fallback_story
  | StoryResolved TextUndefined => story_result_json fallback_story
  | StoryResolved TextEmpty => story_result_json fallback_story
  | StoryResolved (TextNonEmpty None) => story_result_json fallback_story
  | StoryResolved (TextNonEmpty (Some j)) => j
  end.

Inductive ImageSize := Size1K | Size2K | Size4K.

Record InlineData := mkInlineData { mimeType : string; data : string }.
Record Part := mkPart { part_text : option string; inlineData : option InlineData }.
Record Content := mkContent { parts : option (list Part) }.
Record Candidate := mkCandidate { content : option Content }.
Record ImageResponse := mkImageResponse { candidates : option (list Candidate) }.

(** How the [generateContent] call of [generateSceneImage] ends. *)
Inductive ImageOutcome :=
| ImageRejected
| ImageResolved (r : ImageResponse).

(** [response.candidates?.[0]?.content?.parts || []]. *)
Definition first_candidate_parts (r : ImageResponse) : list Part :=
  match candidates r with
  | Some (c :: _) =>
      match content c with
      | Some ct => match parts ct with Some ps => ps | None => [] end
      | None => []
      end
  | _ => []
  end.

(** The [for ... of] loop: the first part with [inlineData] gives the
    data URI. *)
Fixpoint first_inline_uri (ps : list Part) : option string :=
  match ps with
  | [] => None
  | p :: ps =>
      match inlineData p with
      | Some d => Some ("data:" ++ mimeType d ++ ";base64," ++ data d)%string
      | None => first_inline_uri ps
      end
  end.

Definition generateSceneImage (prompt : string) (size : ImageSize)
    (outcome : ImageOutcome) : option string :=
  match outcome with
  | ImageRejected => None
  | ImageResolved r => first_inline_uri (first_candidate_parts r)
  end.

(** The host hook [window.aistudio]: absent (or without
    [hasSelectedApiKey]), or present with the answer of
    [hasSelectedApiKey()]. *)
Inductive AiStudio :=
| NoAiStudio
| AiStudioHook (hasSelectedApiKey : bool).

(** [checkAndRequestApiKey]: whether it called [openSelectKey()], and the
    boolean it resolves to. *)
Definition checkAndRequestApiKey (w : AiStudio) : bool * bool :=
  match w with
  | AiStudioHook hasKey =>
      if hasKey then (false, true) else (true, true)
  | NoAiStudio => (false, true)
  end.

(** [Date.now().toString()]: the decimal digits of a number. *)
Fixpoint digits_of_N (fuel : nat) (n : N) (acc : string) : string :=
  match fuel with
  | O => acc
  | S fuel' =>
      let acc' := String (ascii_of_N (48 + n mod 10)) acc in
      if (n <? 10)%N then acc' else digits_of_N fuel' (n / 10)%N acc'
  end.

Definition string_of_Z (z : Z) : string :=
  let s := digits_of_N (S (N.size_nat (Z.abs_N z))) (Z.abs_N z) "" in
  if (z <? 0)%Z then String "-" s else s.

(** ** [App.tsx] *)

(** The state hooks of [App]. *)
Record AppState := mkAppState {
  hasApiKey : bool;
  loading : bool;
  initializing : bool;
  gameState : GameState;
  storyLog : list StorySegment;
  currentChoices : list string;
  customInput : string;
  imageResolution : ImageSize
}.

(** The backend calls a handler starts. *)
Inductive Call :=
| StoryCall (history : list string) (action : string)
    (inv : list string) (quest : string)
| ImageCall (segmentId : string) (prompt : string) (size : ImageSize).

Definition initial_game_state : GameState :=
  {| inventory := [];
     currentQuest := "Awaken and find your purpose.";
     health := 100;
     location := "Unknown" |}.

Definition initial_app_state : AppState :=
  {| hasApiKey := false;
     loading := false;
     initializing := false;
     gameState := initial_game_state;
     storyLog := [];
     currentChoices := ["Look around"];
     customInput := "";
     imageResolution := Size1K |}.

Definition initial_segment (now : Z) : StorySegment :=
  {| seg_id := "init";
     text := "You awaken in a dimly lit chamber. The air is cold and smells of ancient stone. Dust motes dance in a stray beam of light cutting through the darkness. You have no memory of how you arrived here.";
     imagePrompt := None;
     imageUrl := None;
     choices := ["Search the room"; "Call out for help"; "Examine yourself"];
     isUser := None;
     timestamp := now |}.

(** The [init] effect, from [setInitializing(true)] to
    [setInitializing(false)]; [now] is the [Date.now()] of the initial
    segment. *)
Definition init_app (w : AiStudio) (now : Z) (st : AppState)
    : AppState * list Call :=
  let keySelected := snd (checkAndRequestApiKey w) in
  if keySelected then
    let seg := initial_segment now in
    ({| hasApiKey := true;
        loading := loading st;
        initializing := false;
        gameState := gameState st;
        storyLog := [seg];
        currentChoices := choices seg;
        customInput := customInput st;
        imageResolution := imageResolution st |},
     [ImageCall (seg_id seg)
        "A dimly lit ancient stone chamber, cold atmosphere, dust motes in light beam."
        (imageResolution st)])
  else
    ({| hasApiKey := false;
        loading := loading st;
        initializing := false;
        gameState := gameState st;
        storyLog := storyLog st;
        currentChoices := currentChoices st;
        customInput := customInput st;
        imageResolution := imageResolution st |}, []).

(** The history [handleAction] passes to [generateStorySegment]. *)
Definition history_text (log : list StorySegment) : list string :=
  map text (js_slice_neg 5 (filter (fun s => negb (is_user s)) log)).

(** [handleAction(action)] up to its [await]: steps 1 and 2.  [t_id] and
    [t_ts] are the two [Date.now()] readings of the user segment. *)
Definition submit_action (action : string) (t_id t_ts : Z) (st : AppState)
    : AppState * list Call :=
  if loading st then (st, []) else
  let userSegment :=
    {| seg_id := (string_of_Z t_id ++ "-user")%string;
       text := action;
       imagePrompt := None;
       imageUrl := None;
       choices := [];
       isUser := Some true;
       timestamp := t_ts |} in
  ({| hasApiKey := hasApiKey st;
      loading := true;
      initializing := initializing st;
      gameState := gameState st;
      storyLog := storyLog st ++ [userSegment];
      currentChoices := currentChoices st;
      customInput := customInput st;
      imageResolution := imageResolution st |},
   [StoryCall (history_text (storyLog st)) action
      (inventory (gameState st)) (currentQuest (gameState st))]).

(** [handleAction] after its [await]: steps 3 to 5.  [result] is the
    object [generateStorySegment] resolved to, read through the schema's
    fields; [res] is [imageResolution] as the submitting render saw it;
    [t_id] and [t_ts] are the [Date.now()] readings of the new segment. *)
Definition resolve_turn (result : StoryResult) (res : ImageSize)
    (t_id t_ts : Z) (st : AppState) : AppState * list Call :=
  let newSegmentId := string_of_Z t_id in
  let newSegment :=
    {| seg_id := newSegmentId;
       text := narrative result;
       imagePrompt := Some (image_prompt result);
       imageUrl := None;
       choices := suggested_choices result;
       isUser := None;
       timestamp := t_ts |} in
  ({| hasApiKey := hasApiKey st;
      loading := false;
      initializing := initializing st;
      gameState := update_game_state result (gameState st);
      storyLog := storyLog st ++ [newSegment];
      currentChoices := suggested_choices result;
      customInput := "";
      imageResolution := imageResolution st |},
   if String.eqb (image_prompt result) "" then []
   else [ImageCall newSegmentId (image_prompt result) res]).

(** [{ ...seg, imageUrl }]. *)
Definition set_imageUrl (url : string) (seg : StorySegment) : StorySegment :=
  {| seg_id := seg_id seg;
     text := text seg;
     imagePrompt := imagePrompt seg;
     imageUrl := Some url;
     choices := choices seg;
     isUser := isUser seg;
     timestamp := timestamp seg |}.

(** The [setStoryLog] updater of [generateImageForSegment]. *)
Definition patch_image (segmentId url : string) (log : list StorySegment)
    : list StorySegment :=
  map (fun seg =>
         if String.eqb (seg_id seg) segmentId then set_imageUrl url seg
         else seg) log.

(** [generateImageForSegment] after its [await]: [imageUrl] is what
    [generateSceneImage] resolved to; the [if (imageUrl)] test is JS
    truthiness. *)
Definition image_resolved (segmentId : string) (imageUrl : option string)
    (st : AppState) : AppState :=
  match imageUrl with
  | Some url =>
      if String.eqb url "" then st else
      {| hasApiKey := hasApiKey st;
         loading := loading st;
         initializing := initializing st;
         gameState := gameState st;
         storyLog := patch_image segmentId url (storyLog st);
         currentChoices := currentChoices st;
         customInput := customInput st;
         imageResolution := imageResolution st |}
  | None => st
  end.

(** A session: the app state and the narrative call in flight, if any,
    with the [imageResolution] its [handleAction] closure saw. *)
Record Session := mkSession {
  app : AppState;
  pending_turn : option ImageSize
}.

(** What can happen to a session besides the [init] effect, whose
    completion [init_app] models. *)
Inductive Event :=
| EvSubmit (action : string) (t_id t_ts : Z)
| EvStoryDone (result : StoryResult) (t_id t_ts : Z)
| EvImageDone (segmentId : string) (imageUrl : option string)
| EvSetResolution (r : ImageSize).

Definition set_resolution (r : ImageSize) (st : AppState) : AppState :=
  {| hasApiKey := hasApiKey st;
     loading := loading st;
     initializing := initializing st;
     gameState := gameState st;
     storyLog := storyLog st;
     currentChoices := currentChoices st;
     customInput := customInput st;
     imageResolution := r |}.

Definition step (s : Session) (e : Event) : Session :=
  match e with
  | EvSubmit a t1 t2 =>
      if loading (app s) then s else
      {| app := fst (submit_action a t1 t2 (app s));
         pending_turn := Some (imageResolution (app s)) |}
  | EvStoryDone r t1 t2 =>
      match pending_turn s with
      | Some res => {| app := fst (resolve_turn r res t1 t2 (app s));
                       pending_turn := None |}
      | None => s
      end
  | EvImageDone id u => {| app := image_resolved id u (app s);
                           pending_turn := pending_turn s |}
  | EvSetResolution r => {| app := set_resolution r (app s);
                            pending_turn := pending_turn s |}
  end.

Definition run (s : Session) (es : list Event) : Session :=
  fold_left step es s.

(** The session once the [init] effect has run. *)
Definition started_session (w : AiStudio) (now : Z) : Session :=
  {| app := fst (init_app w now initial_app_state); pending_turn := None |}.

(** A narrative call ending in one of the failures the [try] block
    catches: the request rejects, the text is missing or empty, or
    [JSON.parse] throws. *)
Definition story_call_failed (resp : StoryResponse) : bool :=
  match resp with
  | StoryRejected => true
  | StoryResolved TextUndefined => true
  | StoryResolved TextEmpty => true
  | StoryResolved (TextNonEmpty None) => true
  | StoryResolved (TextNonEmpty (Some _)) => false
  end.

(** The same delta with another [new_quest]. *)
Definition with_new_quest (q : option string) (r : StoryResult) : StoryResult :=
  {| narrative := narrative r;
     inventory_add := inventory_add r;
     inventory_remove := inventory_remove r;
     new_quest := q;
     image_prompt := image_prompt r;
     suggested_choices := suggested_choices r |}.

(** Deltas applied one after the other to the game state. *)
Definition apply_deltas (rs : list StoryResult) (gs : GameState) : GameState :=
  fold_left (fun g r => update_game_state r g) rs gs.

(** The full-screen "Reload to Select Key" prompt is rendered. *)
Definition shows_reload_prompt (st : AppState) : bool :=
  negb (hasApiKey st) && negb (initializing st).

(** Whether an item is absent from a remove list. *)
Definition not_removed (rem : list string) (y : string) : bool :=
  negb (existsb (String.eqb y) rem).

(** The choices of the last narrative segment of a log, if any. *)
Fixpoint last_narrative_choices (log : list StorySegment) : option (list string) :=
  match log with
  | [] => None
  | seg :: rest =>
      match last_narrative_choices rest with
      | Some c => Some c
      | None => if is_user seg then None else Some (choices seg)
      end
  end.

(** A segment with its [imageUrl] left out. *)
Definition forget_image (seg : StorySegment) : StorySegment :=
  {| seg_id := seg_id seg;
     text := text seg;
     imagePrompt := imagePrompt seg;
     imageUrl := None;
     choices := choices seg;
     isUser := isUser seg;
     timestamp := timestamp seg |}.

(** [Sidebar]: the quest paragraph, [gameState.currentQuest || "Explore
    the world..."], and the health reading, a fixed text. *)
Definition sidebar_quest (gs : GameState) : string :=
  if String.eqb (currentQuest gs) "" then "Explore the world..." else currentQuest gs.

Definition sidebar_health (gs : GameState) : string := "100/100".

(** A character of a decimal number: a digit or the minus sign. *)
Definition number_char (c : ascii) : bool :=
  ((48 <=? N_of_ascii c) && (N_of_ascii c <=? 57))%N || Ascii.eqb c "-"%char.

(** The shape of the ids [App] gives segments: [Date.now() + '-user'] for
    an action, ['init'] or [Date.now()] for narrative. *)
Definition id_shape (seg : StorySegment) : Prop :=
  if is_user seg then exists t, seg_id seg = (string_of_Z t ++ "-user")%string
  else seg_id seg = "init" \/ exists t, seg_id seg = string_of_Z t.

(** ** Facts about the JS set operations *)

Lemma set_add_In s x y : In y (set_add s x) <-> In y s \/ y = x.
Proof.
  unfold set_add. destruct (existsb (String.eqb x) s) eqn:E.
  - apply existsb_exists in E as [z [Hz Hxz]].
    apply String.eqb_eq in Hxz; subst z.
    split; [tauto|]. intros [H|H]; [exact H|subst; exact Hz].
  - rewrite in_app_iff; simpl. intuition.
Qed.

Lemma set_add_NoDup s x : NoDup s -> NoDup (set_add s x).
Proof.
  intros Hs. unfold set_add. destruct (existsb (String.eqb x) s) eqn:E.
  - exact Hs.
  - apply NoDup_app; [exact Hs | constructor; [simpl; tauto | constructor] |].
    intros y Hy [Hxy|[]]; subst y.
    assert (existsb (String.eqb x) s = true) as E'.
    { apply existsb_exists. exists x. split; [exact Hy|apply String.eqb_refl]. }
    congruence.
Qed.

Lemma fold_set_add_In l s y :
  In y (fold_left set_add l s) <-> In y s \/ In y l.
Proof.
  revert s. induction l as [|x l IH]; intros s; simpl.
  - tauto.
  - rewrite IH, set_add_In. intuition.
Qed.

Lemma fold_set_add_NoDup l s : NoDup s -> NoDup (fold_left set_add l s).
Proof.
  revert s. induction l as [|x l IH]; intros s Hs; simpl.
  - exact Hs.
  - apply IH, set_add_NoDup, Hs.
Qed.

Lemma set_delete_In s x y : In y (set_delete s x) <-> In y s /\ y <> x.
Proof.
  unfold set_delete. rewrite filter_In.
  destruct (String.eqb x y) eqn:E.
  - apply String.eqb_eq in E; subst. simpl. intuition; discriminate.
  - apply String.eqb_neq in E. simpl. intuition.
Qed.

Lemma fold_set_delete_In l s y :
  In y (fold_left set_delete l s) <-> In y s /\ ~ In y l.
Proof.
  revert s. induction l as [|x l IH]; intros s; simpl.
  - tauto.
  - rewrite IH, set_delete_In. intuition.
Qed.

Lemma fold_set_delete_NoDup l s : NoDup s -> NoDup (fold_left set_delete l s).
Proof.
  revert s. induction l as [|x l IH]; intros s Hs; simpl.
  - exact Hs.
  - apply IH. unfold set_delete. apply NoDup_filter, Hs.
Qed.

(** [new Set(l)] followed by [Array.from] returns a duplicate-free [l]
    unchanged, in the same order. *)
Lemma fold_set_add_NoDup_id l acc :
  NoDup (acc ++ l) -> fold_left set_add l acc = acc ++ l.
Proof.
  revert acc. induction l as [|x l IH]; intros acc Hnd; simpl.
  - now rewrite app_nil_r.
  - unfold set_add at 2.
    destruct (existsb (String.eqb x) acc) eqn:E.
    + exfalso. apply existsb_exists in E as [z [Hz Hxz]].
      apply String.eqb_eq in Hxz; subst z.
      apply NoDup_remove_2 in Hnd. apply Hnd, in_app_iff. now left.
    + rewrite IH; [now rewrite <- app_assoc|].
      now rewrite <- app_assoc.
Qed.

Lemma new_Set_NoDup_id l : NoDup l -> new_Set l = l.
Proof. intros H. apply (fold_set_add_NoDup_id l []), H. Qed.

(** ** Facts about slices and the session *)

Lemma js_slice_neg_suffix {A} k (l : list A) :
  exists pre, l = pre ++ js_slice_neg k l.
Proof.
  exists (firstn (length l - k) l). unfold js_slice_neg.
  symmetry. apply firstn_skipn.
Qed.

Lemma js_slice_neg_length {A} k (l : list A) :
  length (js_slice_neg k l) = Nat.min k (length l).
Proof. unfold js_slice_neg. rewrite length_skipn. lia. Qed.

Lemma js_slice_neg_short {A} k (l : list A) :
  length l <= k -> js_slice_neg k l = l.
Proof.
  intros H. unfold js_slice_neg.
  replace (length l - k) with 0 by lia. reflexivity.
Qed.

Lemma update_game_state_NoDup r gs : NoDup (inventory (update_game_state r gs)).
Proof.
  simpl. apply fold_set_delete_NoDup, fold_set_add_NoDup.
  unfold new_Set. apply fold_set_add_NoDup. constructor.
Qed.

Lemma js_or_string_nonempty q b : b <> "" -> js_or_string q b <> "".
Proof.
  intros Hb. destruct q as [s|]; simpl; [|exact Hb].
  destruct (String.eqb s "") eqn:E; [exact Hb|].
  apply String.eqb_neq in E. exact E.
Qed.

(** What every reachable session satisfies. *)
Definition session_inv (s : Session) : Prop :=
  NoDup (inventory (gameState (app s))) /\
  currentQuest (gameState (app s)) <> "".

Lemma step_inv s e : session_inv s -> session_inv (step s e).
Proof.
  intros [Hnd Hq]. destruct e as [a t1 t2|r t1 t2|id u|r]; simpl.
  - destruct (loading (app s)) eqn:L; [split; assumption|].
    unfold submit_action. rewrite L. split; assumption.
  - destruct (pending_turn s) as [res|]; [|split; assumption].
    split; simpl.
    + apply update_game_state_NoDup.
    + apply js_or_string_nonempty, Hq.
  - unfold image_resolved. destruct u as [url|]; [|split; assumption].
    destruct (String.eqb url ""); split; assumption.
  - split; assumption.
Qed.

Lemma run_inv s es : session_inv s -> session_inv (run s es).
Proof.
  revert s. induction es as [|e es IH]; intros s H; simpl.
  - exact H.
  - apply IH, step_inv, H.
Qed.

Lemma started_session_inv w now : session_inv (started_session w now).
Proof.
  unfold started_session, init_app, checkAndRequestApiKey.
  destruct w as [|[|]]; simpl; split; (constructor || discriminate).
Qed.

Lemma reachable_inv w now es : session_inv (run (started_session w now) es).
Proof. apply run_inv, started_session_inv. Qed.

(** ** The claims *)

(** C1: applying a delta to a current inventory yields exactly
    (current ∪ add) \ remove, with no duplicates; an item named in both
    the add and the remove list of the delta is absent from the result. *)
Theorem inventory_delta_union_minus (r : StoryResult) (gs : GameState) :
  NoDup (inventory (update_game_state r gs)) /\
  (forall x, In x (inventory (update_game_state r gs)) <->
             (In x (inventory gs) \/ In x (inventory_add r)) /\
             ~ In x (inventory_remove r)) /\
  (forall x, In x (inventory_add r) -> In x (inventory_remove r) ->
             ~ In x (inventory (update_game_state r gs))).
Proof.
  assert (Hin : forall x, In x (inventory (update_game_state r gs)) <->
             (In x (inventory gs) \/ In x (inventory_add r)) /\
             ~ In x (inventory_remove r)).
  { intros x. simpl. unfold new_Set.
    rewrite fold_set_delete_In, !fold_set_add_In. simpl. tauto. }
  split; [apply update_game_state_NoDup|].
  split; [exact Hin|].
  intros x _ Hrem Hx. apply Hin in Hx. tauto.
Qed.

(** C2 (as stated, refuted): a delta whose quest is non-null, the empty
    string, leaves the quest unchanged. *)
Lemma quest_nonnull_unchanged_cex :
  new_quest (with_new_quest (Some "") fallback_story) <> None /\
  currentQuest (update_game_state (with_new_quest (Some "") fallback_story)
                  initial_game_state) = currentQuest initial_game_state.
Proof. split; [discriminate | reflexivity]. Qed.

(** C2 (amended): the quest after a turn is the delta's quest when it is
    a non-empty string and the previous quest when it is null or empty;
    any sequence of null-quest deltas leaves the quest as it was. *)
Theorem quest_replaced_iff_nonempty :
  (forall r gs q, new_quest r = Some q -> q <> "" ->
     currentQuest (update_game_state r gs) = q) /\
  (forall r gs, new_quest r = None \/ new_quest r = Some "" ->
     currentQuest (update_game_state r gs) = currentQuest gs) /\
  (forall rs gs, Forall (fun r => new_quest r = None) rs ->
     currentQuest (apply_deltas rs gs) = currentQuest gs).
Proof.
  split; [|split].
  - intros r gs q Hq Hne. simpl. rewrite Hq. simpl.
    apply String.eqb_neq in Hne. now rewrite Hne.
  - intros r gs [H|H]; simpl; rewrite H; reflexivity.
  - intros rs. induction rs as [|r rs IH]; intros gs Hall; simpl.
    + reflexivity.
    + inversion Hall as [|? ? Hr Hrs]; subst.
      unfold apply_deltas in IH. rewrite IH by exact Hrs.
      simpl. rewrite Hr. reflexivity.
Qed.

(** C3 (as stated, refuted): a response that parses as JSON but has none
    of the schema's fields is returned as it is, not replaced by the
    fallback. *)
Lemma malformed_response_not_fallback_cex :
  generateStorySegment [] "Search the room" [] "Awaken and find your purpose."
    (StoryResolved (TextNonEmpty (Some (JObj [])))) <>
  story_result_json fallback_story.
Proof. discriminate. Qed.

(** C3 (amended): when the request rejects, the text is missing or empty,
    or it does not parse, [generateStorySegment] returns the fixed fallback
    (uncertainty narrative, no adds, no removes, null quest, the foggy
    void prompt, the single choice "Try again"); and resolving a turn with
    the fallback in any reachable session leaves inventory and quest
    unchanged and makes "Try again" the only choice.  A response whose
    text parses as JSON is returned as parsed, whatever its shape. *)
Theorem story_failure_gives_fallback h a inv q resp :
  story_call_failed resp = true ->
  generateStorySegment h a inv q resp = story_result_json fallback_story /\
  narrative fallback_story =
    "The mists of uncertainty cloud your vision... (AI Generation Error, please try again)." /\
  inventory_add fallback_story = [] /\ inventory_remove fallback_story = [] /\
  new_quest fallback_story = None /\
  image_prompt fallback_story = "A foggy void of uncertainty." /\
  suggested_choices fallback_story = ["Try again"] /\
  (forall w now es res t1 t2,
     let st := app (run (started_session w now) es) in
     let st' := fst (resolve_turn fallback_story res t1 t2 st) in
     inventory (gameState st') = inventory (gameState st) /\
     currentQuest (gameState st') = currentQuest (gameState st) /\
     currentChoices st' = ["Try again"]) /\
  (forall j, generateStorySegment h a inv q
               (StoryResolved (TextNonEmpty (Some j))) = j).
Proof.
  intros Hf.
  split.
  { destruct resp as [|[| |[j|]]]; try reflexivity; discriminate. }
  do 6 (split; [reflexivity|]).
  split; [|intros j; reflexivity].
  intros w now es res t1 t2 st st'.
  destruct (reachable_inv w now es) as [Hnd _].
  subst st st'. simpl. split; [|split; reflexivity].
  exact (new_Set_NoDup_id _ Hnd).
Qed.

Lemma story_failure_gives_fallback_witness :
  story_call_failed StoryRejected = true /\
  generateStorySegment [] "Search the room" [] "Awaken and find your purpose."
    StoryRejected = story_result_json fallback_story.
Proof.
  split; [reflexivity|].
  apply (story_failure_gives_fallback [] "Search the room" []
           "Awaken and find your purpose." StoryRejected).
  reflexivity.
Defined.

(** C4: an action submitted while a narrative call is in flight changes
    nothing (log, game state, choices, in-flight flag) and starts no
    backend call. *)
Theorem submit_while_loading_ignored s a t1 t2 :
  loading (app s) = true ->
  submit_action a t1 t2 (app s) = (app s, []) /\
  step s (EvSubmit a t1 t2) = s.
Proof.
  intros L. unfold submit_action. rewrite L. split; [reflexivity|].
  simpl. rewrite L. reflexivity.
Qed.

Lemma submit_while_loading_ignored_witness :
  let s := step (started_session NoAiStudio 0) (EvSubmit "Search the room" 1 1) in
  loading (app s) = true /\ step s (EvSubmit "Call out for help" 2 2) = s.
Proof.
  intros s. split; [reflexivity|].
  apply (submit_while_loading_ignored s "Call out for help" 2 2).
  reflexivity.
Defined.

(** C5 (as stated, refuted): when the hook reports no key, the key check
    opens the selection dialog and still reports true, and the init
    effect creates the initial segment without any confirmation. *)
Lemma api_key_unconfirmed_start_cex :
  checkAndRequestApiKey (AiStudioHook false) = (true, true) /\
  storyLog (app (started_session (AiStudioHook false) 0)) = [initial_segment 0].
Proof. split; reflexivity. Qed.

(** C5 (amended): [checkAndRequestApiKey] resolves to true whatever the
    hook says; it opens the selection dialog exactly when the hook reports
    no key; so the init effect always starts the game with the initial
    segment, and the reload prompt is not shown after it. *)
Theorem api_key_check_always_true (w : AiStudio) (now : Z) :
  snd (checkAndRequestApiKey w) = true /\
  (fst (checkAndRequestApiKey w) = true <-> w = AiStudioHook false) /\
  hasApiKey (app (started_session w now)) = true /\
  storyLog (app (started_session w now)) = [initial_segment now] /\
  shows_reload_prompt (app (started_session w now)) = false.
Proof.
  destruct w as [|[|]]; simpl; repeat split; try reflexivity;
    try discriminate; intros H; (discriminate || reflexivity || idtac).
Qed.

(** The clock is set back between two turns, so both narrative
    segments get the id "5000"; the image call of the first one resolves
    to null, the image call of the second one to an image. *)
Definition shared_id_image_session : Session :=
  run (started_session NoAiStudio 1000)
    [EvSubmit "Search the room" 4000 4000;
     EvStoryDone fallback_story 5000 5000;
     EvImageDone "5000" None;
     EvSubmit "Try again" 4500 4500;
     EvStoryDone fallback_story 5000 5000;
     EvImageDone "5000" (Some "data:image/png;base64,AA")].

(** C6 (code defect): the segment whose own image call resolved to null
    still gets an [imageUrl], from the image of a later segment that
    shares its [Date.now()] id, since the patch matches by id. *)
Theorem failed_image_url_set_by_shared_id :
  map (fun seg => (seg_id seg, imageUrl seg))
      (storyLog (app shared_id_image_session)) =
    [("init", None); ("4000-user", None);
     ("5000", Some "data:image/png;base64,AA");
     ("4500-user", None);
     ("5000", Some "data:image/png;base64,AA")].
Proof. vm_compute. reflexivity. Qed.

(** C7: the history the narrative call receives is the text of the last
    five (or all, if fewer) non-user segments of the log at submission, in
    log order; [generateStorySegment] keeps all of them in its prompt. *)
Theorem turn_history_last_five_narrative st a t1 t2 :
  loading st = false ->
  exists segs,
    snd (submit_action a t1 t2 st) =
      [StoryCall (map text segs) a (inventory (gameState st))
                 (currentQuest (gameState st))] /\
    (exists pre, filter (fun s => negb (is_user s)) (storyLog st) = pre ++ segs) /\
    length segs = Nat.min 5 (length (filter (fun s => negb (is_user s)) (storyLog st))) /\
    Forall (fun s => is_user s = false) segs /\
    story_context (map text segs) = map text segs.
Proof.
  intros L.
  set (N := filter (fun s => negb (is_user s)) (storyLog st)).
  exists (js_slice_neg 5 N). split; [|split; [|split; [|split]]].
  - unfold submit_action. rewrite L. reflexivity.
  - apply js_slice_neg_suffix.
  - apply js_slice_neg_length.
  - apply Forall_forall. intros s Hs.
    destruct (js_slice_neg_suffix 5 N) as [pre Hpre].
    assert (Hin : In s N) by (rewrite Hpre; apply in_app_iff; now right).
    unfold N in Hin. apply filter_In in Hin as [_ Hu].
    now destruct (is_user s).
  - apply js_slice_neg_short. rewrite length_map, js_slice_neg_length. lia.
Qed.

(** A log with two narrative segments around a user action. *)
Definition sample_session : Session :=
  run (started_session NoAiStudio 0)
    [EvSubmit "Search the room" 10 10; EvStoryDone fallback_story 20 20].

Lemma turn_history_last_five_narrative_witness :
  loading (app sample_session) = false /\
  exists segs,
    snd (submit_action "Try again" 30 30 (app sample_session)) =
      [StoryCall (map text segs) "Try again"
         (inventory (gameState (app sample_session)))
         (currentQuest (gameState (app sample_session)))] /\
    length segs = 2.
Proof.
  split; [reflexivity|].
  destruct (turn_history_last_five_narrative (app sample_session)
              "Try again" 30 30 eq_refl) as [segs [Hc [_ [Hl _]]]].
  exists segs. split; [exact Hc|]. rewrite Hl. reflexivity.
Defined.

(** C8: an image result for id [sid] sets [imageUrl] on the segments whose
    id is [sid], keeping their other fields; every other segment, the
    length and order of the log and the rest of the state are unchanged;
    with no segment of id [sid] the log is unchanged. *)
Theorem image_patch_by_id sid url st :
  url <> "" ->
  let st' := image_resolved sid (Some url) st in
  length (storyLog st') = length (storyLog st) /\
  (forall i seg, nth_error (storyLog st) i = Some seg ->
     exists seg', nth_error (storyLog st') i = Some seg' /\
       (seg_id seg <> sid -> seg' = seg) /\
       (seg_id seg = sid ->
          seg_id seg' = seg_id seg /\ text seg' = text seg /\
          imagePrompt seg' = imagePrompt seg /\ imageUrl seg' = Some url /\
          choices seg' = choices seg /\ isUser seg' = isUser seg /\
          timestamp seg' = timestamp seg)) /\
  (~ (exists seg, In seg (storyLog st) /\ seg_id seg = sid) ->
     storyLog st' = storyLog st) /\
  gameState st' = gameState st /\ loading st' = loading st /\
  currentChoices st' = currentChoices st /\ hasApiKey st' = hasApiKey st.
Proof.
  intros Hu st'. subst st'. unfold image_resolved.
  apply String.eqb_neq in Hu. rewrite Hu. simpl.
  split; [unfold patch_image; apply length_map|].
  split; [|split; [|repeat split]].
  - intros i seg Hi. unfold patch_image. rewrite nth_error_map, Hi. simpl.
    eexists. split; [reflexivity|].
    destruct (String.eqb (seg_id seg) sid) eqn:E.
    + apply String.eqb_eq in E. split; [contradiction|].
      intros _. repeat split.
    + apply String.eqb_neq in E. split; [reflexivity|contradiction].
  - intros Hno. unfold patch_image.
    rewrite <- (map_id (storyLog st)) at 2. apply map_ext_in.
    intros seg Hin. destruct (String.eqb (seg_id seg) sid) eqn:E; [|reflexivity].
    apply String.eqb_eq in E. exfalso. apply Hno. now exists seg.
Qed.

Lemma image_patch_by_id_witness :
  "data:image/png;base64,AA" <> "" /\
  length (storyLog (image_resolved "20" (Some "data:image/png;base64,AA")
                      (app sample_session))) =
  length (storyLog (app sample_session)).
Proof.
  split; [discriminate|].
  apply (image_patch_by_id "20" "data:image/png;base64,AA" (app sample_session)).
  discriminate.
Defined.

(** A session in which the wall clock is set back between two turns:
    the first turn is submitted at 4000 ms and answered at 5000 ms, the
    clock then reads 4500 ms for the next submission and 5000 ms again
    when it is answered. *)
Definition clock_set_back_session : Session :=
  run (started_session NoAiStudio 1000)
    [EvSubmit "Search the room" 4000 4000;
     EvStoryDone fallback_story 5000 5000;
     EvSubmit "Try again" 4500 4500;
     EvStoryDone fallback_story 5000 5000].

(** C9 (code defect): segment ids are built from [Date.now()], so two
    narrative segments created at the same clock reading share an id. *)
Theorem segment_ids_collide :
  map seg_id (storyLog (app clock_set_back_session)) =
    ["init"; "4000-user"; "5000"; "4500-user"; "5000"] /\
  ~ NoDup (map seg_id (storyLog (app clock_set_back_session))).
Proof.
  assert (Hids : map seg_id (storyLog (app clock_set_back_session)) =
                 ["init"; "4000-user"; "5000"; "4500-user"; "5000"])
    by (vm_compute; reflexivity).
  split; [exact Hids|]. rewrite Hids. intros Hnd.
  inversion Hnd as [|? ? _ H1]; subst.
  inversion H1 as [|? ? _ H2]; subst.
  inversion H2 as [|? ? Hn _]; subst.
  apply Hn. simpl. tauto.
Qed.

(** C10: a delta whose quest is the empty string acts exactly as one
    whose quest is null; from the initial quest, the quest is never the
    empty string in any reachable session. *)
Theorem empty_quest_is_noop :
  (forall r gs, update_game_state (with_new_quest (Some "") r) gs =
                update_game_state (with_new_quest None r) gs) /\
  (forall r gs, currentQuest (update_game_state (with_new_quest (Some "") r) gs) =
                currentQuest gs) /\
  (forall w now es,
     currentQuest (gameState (app (run (started_session w now) es))) <> "").
Proof.
  split; [|split].
  - reflexivity.
  - reflexivity.
  - intros w now es. apply (reachable_inv w now es).
Qed.

(** ** Further properties of the code *)

(** *** The inventory pipeline *)

Lemma filter_filter_andb {A} (f g : A -> bool) l :
  filter f (filter g l) = filter (fun x => f x && g x) l.
Proof.
  induction l as [|x l IH]; simpl; [reflexivity|].
  destruct (g x) eqn:Eg; simpl; destruct (f x); simpl; rewrite ?IH; reflexivity.
Qed.

Lemma fold_set_delete_filter rem s :
  fold_left set_delete rem s = filter (not_removed rem) s.
Proof.
  revert s. induction rem as [|x rem IH]; intros s; simpl.
  - unfold not_removed; simpl. symmetry. apply forallb_filter_id.
    apply forallb_forall. reflexivity.
  - rewrite IH. unfold set_delete. rewrite filter_filter_andb.
    apply filter_ext. intros y. unfold not_removed; simpl.
    rewrite (String.eqb_sym x y). destruct (String.eqb y x); simpl;
    rewrite ?andb_false_r, ?andb_true_r; reflexivity.
Qed.

Lemma not_removed_true rem y : not_removed rem y = true <-> ~ In y rem.
Proof.
  unfold not_removed. rewrite negb_true_iff. split.
  - intros H Hin. assert (existsb (String.eqb y) rem = true); [|congruence].
    apply existsb_exists. exists y. split; [exact Hin|apply String.eqb_refl].
  - intros H. destruct (existsb (String.eqb y) rem) eqn:E; [|reflexivity].
    apply existsb_exists in E as [z [Hz Hyz]].
    apply String.eqb_eq in Hyz; subst z. contradiction.
Qed.

Lemma filter_set_add P acc x :
  filter P (set_add acc x) = if P x then set_add (filter P acc) x else filter P acc.
Proof.
  unfold set_add.
  destruct (existsb (String.eqb x) acc) eqn:E.
  - destruct (P x) eqn:Px; [|reflexivity].
    replace (existsb (String.eqb x) (filter P acc)) with true; [reflexivity|].
    symmetry. apply existsb_exists in E as [z [Hz Hxz]].
    apply String.eqb_eq in Hxz; subst z.
    apply existsb_exists. exists x. split; [apply filter_In; auto|apply String.eqb_refl].
  - rewrite filter_app. simpl. destruct (P x) eqn:Px; [|apply app_nil_r].
    replace (existsb (String.eqb x) (filter P acc)) with false; [reflexivity|].
    symmetry. apply not_true_iff_false. intros E'.
    apply existsb_exists in E' as [z [Hz Hxz]].
    apply String.eqb_eq in Hxz; subst z. apply filter_In in Hz as [Hz _].
    assert (existsb (String.eqb x) acc = true); [|congruence].
    apply existsb_exists. exists x. split; [exact Hz|apply String.eqb_refl].
Qed.

Lemma filter_fold_set_add P l acc :
  filter P (fold_left set_add l acc) = fold_left set_add (filter P l) (filter P acc).
Proof.
  revert acc. induction l as [|x l IH]; intros acc; simpl; [reflexivity|].
  rewrite IH, filter_set_add. destruct (P x); reflexivity.
Qed.

Lemma fold_set_add_present l acc :
  (forall x, In x l -> In x acc) -> fold_left set_add l acc = acc.
Proof.
  revert acc. induction l as [|x l IH]; intros acc H; simpl; [reflexivity|].
  unfold set_add at 2.
  replace (existsb (String.eqb x) acc) with true.
  - apply IH. intros y Hy. apply H. now right.
  - symmetry. apply existsb_exists. exists x.
    split; [apply H; now left|apply String.eqb_refl].
Qed.

Lemma update_inventory_In r gs x :
  In x (inventory (update_game_state r gs)) <->
  (In x (inventory gs) \/ In x (inventory_add r)) /\ ~ In x (inventory_remove r).
Proof.
  simpl. unfold new_Set. rewrite fold_set_delete_In, !fold_set_add_In. simpl. tauto.
Qed.

(** X1: the inventory after a delta lists, in order of first appearance,
    the items of the old inventory followed by the added ones, without
    repeats, minus every removed item. *)
Theorem update_inventory_order r gs :
  inventory (update_game_state r gs) =
  filter (not_removed (inventory_remove r))
    (new_Set (inventory gs ++ inventory_add r)).
Proof.
  simpl. rewrite fold_set_delete_filter. unfold new_Set.
  rewrite fold_left_app. reflexivity.
Qed.

Lemma game_state_ext g1 g2 :
  inventory g1 = inventory g2 -> currentQuest g1 = currentQuest g2 ->
  health g1 = health g2 -> location g1 = location g2 -> g1 = g2.
Proof. destruct g1, g2; simpl; intros -> -> -> ->; reflexivity. Qed.

(** X2: applying the same delta twice leaves the game state as applying it
    once. *)
Theorem update_game_state_idempotent r gs :
  update_game_state r (update_game_state r gs) = update_game_state r gs.
Proof.
  set (gs1 := update_game_state r gs).
  assert (Hinv : inventory (update_game_state r gs1) = inventory gs1).
  { rewrite update_inventory_order.
    set (P := not_removed (inventory_remove r)).
    unfold new_Set. rewrite filter_fold_set_add. simpl filter at 2.
    rewrite filter_app, fold_left_app.
    assert (Hf : filter P (inventory gs1) = inventory gs1).
    { apply forallb_filter_id, forallb_forall. intros y Hy.
      apply update_inventory_In in Hy as [_ Hy].
      apply not_removed_true, Hy. }
    rewrite Hf.
    change (fold_left set_add (inventory gs1) []) with (new_Set (inventory gs1)).
    rewrite new_Set_NoDup_id by apply update_game_state_NoDup.
    apply fold_set_add_present. intros y Hy.
    apply filter_In in Hy as [Hy Hp]. apply not_removed_true in Hp.
    apply update_inventory_In. tauto. }
  assert (Hq : currentQuest (update_game_state r gs1) = currentQuest gs1).
  { subst gs1. simpl. destruct (new_quest r) as [q|]; simpl; [|reflexivity].
    destruct (String.eqb q "") eqn:E; simpl; [reflexivity|].
    try rewrite E; reflexivity. }
  apply game_state_ext; [exact Hinv|exact Hq|reflexivity|reflexivity].
Qed.

Lemma apply_deltas_snoc rs r gs :
  apply_deltas (rs ++ [r]) gs = update_game_state r (apply_deltas rs gs).
Proof. unfold apply_deltas. rewrite fold_left_app. reflexivity. Qed.

(** X3: after a sequence of deltas an item is in the inventory exactly when
    some delta added it without removing it and no later delta removed it,
    or it was there at the start and no delta removed it. *)
Theorem apply_deltas_inventory_In rs gs x :
  In x (inventory (apply_deltas rs gs)) <->
  (In x (inventory gs) /\ Forall (fun r => ~ In x (inventory_remove r)) rs) \/
  (exists pre r post, rs = pre ++ r :: post /\
     In x (inventory_add r) /\ ~ In x (inventory_remove r) /\
     Forall (fun r' => ~ In x (inventory_remove r')) post).
Proof.
  induction rs as [|r rs IH] using rev_ind.
  - simpl. split.
    + intros H. left. split; [exact H|constructor].
    + intros [[H _]|[pre [r [post [Hrs _]]]]]; [exact H|].
      destruct pre; discriminate.
  - rewrite apply_deltas_snoc, update_inventory_In, IH, Forall_app.
    split.
    + intros [[[[H1 H2]|[pre [r0 [post [Hrs [Ha [Hr Hp]]]]]]]|Ha] Hnr].
      * left. split; [exact H1|]. split; [exact H2|]. constructor; [exact Hnr|constructor].
      * right. exists pre, r0, (post ++ [r]). split.
        { subst rs. now rewrite <- app_assoc. }
        split; [exact Ha|]. split; [exact Hr|].
        apply Forall_app. split; [exact Hp|]. constructor; [exact Hnr|constructor].
      * right. exists rs, r, []. split; [reflexivity|]. split; [exact Ha|].
        split; [exact Hnr|constructor].
    + intros [[H1 [H2 H3]]|[pre [r0 [post [Hrs [Ha [Hr Hp]]]]]]].
      * inversion H3; subst. split; [left; left; split; assumption|assumption].
      * destruct post as [|r1 post'] using rev_ind.
        { apply app_inj_tail in Hrs as [-> ->].
          split; [right; exact Ha|exact Hr]. }
        clear IHpost'.
        rewrite app_comm_cons, app_assoc in Hrs.
        apply app_inj_tail in Hrs as [Hrs ->].
        apply Forall_app in Hp as [Hp Hlast]. inversion Hlast; subst.
        split; [|assumption]. left. right.
        exists pre, r0, post'. repeat split; assumption.
Qed.

(** *** Reachable sessions *)

Lemma run_preserves (P : Session -> Prop) :
  (forall s e, P s -> P (step s e)) -> forall s es, P s -> P (run s es).
Proof.
  intros Hstep s es. revert s. induction es as [|e es IH]; intros s H; simpl.
  - exact H.
  - apply IH, Hstep, H.
Qed.

Lemma step_gameState s e :
  gameState (app (step s e)) = gameState (app s) \/
  exists r, gameState (app (step s e)) = update_game_state r (gameState (app s)).
Proof.
  destruct e as [a t1 t2|r t1 t2|id u|r]; simpl.
  - destruct (loading (app s)) eqn:L; [now left|].
    unfold submit_action. rewrite L. now left.
  - destruct (pending_turn s); [right; now exists r|now left].
  - unfold image_resolved. destruct u as [url|]; [|now left].
    destruct (String.eqb url ""); now left.
  - now left.
Qed.

(** X4: health and location are never changed: in every session reached
    from start-up they are 100 and "Unknown", which the sidebar's fixed
    "100/100" health reading agrees with. *)
Theorem health_location_constant w now es :
  let gs := gameState (app (run (started_session w now) es)) in
  health gs = 100%Z /\ location gs = "Unknown" /\ sidebar_health gs = "100/100".
Proof.
  intros gs. subst gs.
  assert (H : forall s, health (gameState (app s)) = 100%Z /\
                        location (gameState (app s)) = "Unknown" ->
                        forall es, health (gameState (app (run s es))) = 100%Z /\
                                   location (gameState (app (run s es))) = "Unknown").
  { intros s0 H0 es0. apply (run_preserves (fun s => health (gameState (app s)) = 100%Z /\
                        location (gameState (app s)) = "Unknown")); [|exact H0].
    intros s1 e [Hh Hl]. destruct (step_gameState s1 e) as [->|[r ->]]; auto. }
  destruct (H (started_session w now)) with (es := es) as [Hh Hl].
  { unfold started_session, init_app, checkAndRequestApiKey.
    destruct w as [|[|]]; split; reflexivity. }
  split; [exact Hh|split; [exact Hl|reflexivity]].
Qed.

(** X5: in every session reached from start-up, the in-flight flag
    [loading] is set exactly when a narrative call is outstanding, so at
    most one narrative call is ever in flight. *)
Theorem loading_iff_pending w now es :
  let s := run (started_session w now) es in
  loading (app s) = true <-> pending_turn s <> None.
Proof.
  intros s. subst s.
  set (P := fun s : Session => loading (app s) =
              match pending_turn s with Some _ => true | None => false end).
  assert (Hrun : P (run (started_session w now) es)).
  { apply run_preserves.
    - intros s [|r t1 t2|id u|r]; unfold P; simpl; intros H.
      + destruct (loading (app s)) eqn:L; [congruence|].
        unfold submit_action. rewrite L. reflexivity.
      + destruct (pending_turn s) eqn:Ep; [reflexivity|rewrite Ep; exact H].
      + unfold image_resolved. destruct u as [url|]; [|exact H].
        destruct (String.eqb url ""); exact H.
      + exact H.
    - unfold P, started_session, init_app, checkAndRequestApiKey.
      destruct w as [|[|]]; reflexivity. }
  unfold P in Hrun. rewrite Hrun.
  destruct (pending_turn _); split; congruence.
Qed.

Lemma last_narrative_choices_snoc log seg :
  last_narrative_choices (log ++ [seg]) =
  if is_user seg then last_narrative_choices log else Some (choices seg).
Proof.
  induction log as [|s0 log IH]; simpl.
  - destruct (is_user seg); reflexivity.
  - rewrite IH. destruct (is_user seg); [reflexivity|reflexivity].
Qed.

Lemma last_narrative_choices_patch id url log :
  last_narrative_choices (patch_image id url log) = last_narrative_choices log.
Proof.
  unfold patch_image. induction log as [|s0 log IH]; simpl; [reflexivity|].
  rewrite IH. destruct (String.eqb (seg_id s0) id); reflexivity.
Qed.

(** X6: in every session reached from start-up, the displayed choices are
    those of the most recent narrative segment of the log (the fixed
    "Look around" when there is none). *)
Theorem choices_of_last_narrative w now es :
  let st := app (run (started_session w now) es) in
  currentChoices st =
    match last_narrative_choices (storyLog st) with
    | Some c => c
    | None => ["Look around"]
    end.
Proof.
  intros st. subst st. apply run_preserves.
  - intros s [a t1 t2|r t1 t2|id u|r]; simpl; intros H.
    + destruct (loading (app s)) eqn:L; [exact H|].
      unfold submit_action. rewrite L. simpl.
      rewrite last_narrative_choices_snoc. exact H.
    + destruct (pending_turn s); [|exact H]. simpl.
      rewrite last_narrative_choices_snoc. reflexivity.
    + unfold image_resolved. destruct u as [url|]; [|exact H].
      destruct (String.eqb url ""); [exact H|]. simpl.
      rewrite last_narrative_choices_patch. exact H.
    + exact H.
  - unfold started_session, init_app, checkAndRequestApiKey.
    destruct w as [|[|]]; reflexivity.
Qed.

Lemma forget_image_patch id url log :
  map forget_image (patch_image id url log) = map forget_image log.
Proof.
  unfold patch_image. rewrite map_map. apply map_ext.
  intros seg. destruct (String.eqb (seg_id seg) id); reflexivity.
Qed.

Lemma step_log_extends s e :
  exists suffix,
    map forget_image (storyLog (app (step s e))) =
    map forget_image (storyLog (app s)) ++ suffix.
Proof.
  destruct e as [a t1 t2|r t1 t2|id u|r]; simpl.
  - destruct (loading (app s)) eqn:L; [exists []; now rewrite app_nil_r|].
    unfold submit_action. rewrite L. simpl. rewrite map_app. eexists; reflexivity.
  - destruct (pending_turn s); [|exists []; now rewrite app_nil_r].
    simpl. rewrite map_app. eexists; reflexivity.
  - unfold image_resolved. destruct u as [url|]; [|exists []; now rewrite app_nil_r].
    destruct (String.eqb url ""); [exists []; now rewrite app_nil_r|].
    simpl. rewrite forget_image_patch. exists []; now rewrite app_nil_r.
  - exists []; now rewrite app_nil_r.
Qed.

(** X7: every event other than the completion of the [init] effect
    (submissions, narrative results, image results, resolution changes)
    keeps the story log append-only: the earlier log, read without image
    URLs, is a prefix of the later one.  The completion of [init], with a
    key reported, replaces the whole log by the initial segment, whatever
    was in it. *)
Theorem story_log_append_only :
  (forall s es, exists suffix,
     map forget_image (storyLog (app (run s es))) =
     map forget_image (storyLog (app s)) ++ suffix) /\
  (forall w now st,
     storyLog (fst (init_app w now st)) = [initial_segment now]).
Proof.
  split; [|intros w now st; unfold init_app, checkAndRequestApiKey;
           destruct w as [|[|]]; reflexivity].
  intros s es.
  revert s. induction es as [|e es IH]; intros s; simpl.
  - exists []. now rewrite app_nil_r.
  - destruct (step_log_extends s e) as [suf1 H1].
    destruct (IH (step s e)) as [suf2 H2].
    exists (suf1 ++ suf2). rewrite H2, H1. symmetry. apply app_assoc.
Qed.

Lemma step_image_kept s e i seg :
  nth_error (storyLog (app s)) i = Some seg -> imageUrl seg <> None ->
  exists seg', nth_error (storyLog (app (step s e))) i = Some seg' /\
               imageUrl seg' <> None.
Proof.
  intros Hi Hu.
  destruct e as [a t1 t2|r t1 t2|id u|r]; simpl.
  - destruct (loading (app s)) eqn:L; [eauto|].
    unfold submit_action. rewrite L. simpl. exists seg.
    rewrite nth_error_app1; [auto|]. apply nth_error_Some. congruence.
  - destruct (pending_turn s); [|eauto]. simpl. exists seg.
    rewrite nth_error_app1; [auto|]. apply nth_error_Some. congruence.
  - unfold image_resolved. destruct u as [url|]; [|eauto].
    destruct (String.eqb url ""); [eauto|]. simpl.
    unfold patch_image. rewrite nth_error_map, Hi. simpl.
    destruct (String.eqb (seg_id seg) id); eexists; split; try reflexivity;
      simpl; [discriminate|exact Hu].
  - eauto.
Qed.

(** X8: once a segment has an image URL, the segment at its position
    keeps one across every later event other than the completion of the
    [init] effect (which replaces the log, see X7). *)
Theorem image_url_never_lost s es i seg :
  nth_error (storyLog (app s)) i = Some seg -> imageUrl seg <> None ->
  exists seg', nth_error (storyLog (app (run s es))) i = Some seg' /\
               imageUrl seg' <> None.
Proof.
  revert s seg. induction es as [|e es IH]; intros s seg Hi Hu; simpl.
  - eauto.
  - destruct (step_image_kept s e i seg Hi Hu) as [seg' [Hi' Hu']].
    exact (IH _ _ Hi' Hu').
Qed.

Lemma image_url_never_lost_witness :
  let s := step sample_session (EvImageDone "20" (Some "data:image/png;base64,AA")) in
  nth_error (storyLog (app s)) 2 <> None /\
  exists seg', nth_error (storyLog (app (run s [EvSubmit "Try again" 30 30])))
                 2 = Some seg' /\ imageUrl seg' <> None.
Proof.
  intros s. split; [discriminate|].
  apply (image_url_never_lost s [EvSubmit "Try again" 30 30] 2
           (set_imageUrl "data:image/png;base64,AA"
              (nth 2 (storyLog (app sample_session)) (initial_segment 0)))).
  - reflexivity.
  - discriminate.
Defined.

(** *** Image results *)

Lemma patch_image_commute a b u v log :
  a <> b ->
  patch_image a u (patch_image b v log) = patch_image b v (patch_image a u log).
Proof.
  intros Hab. unfold patch_image. rewrite !map_map. apply map_ext.
  intros seg.
  destruct (String.eqb (seg_id seg) b) eqn:Eb, (String.eqb (seg_id seg) a) eqn:Ea;
    simpl; rewrite ?Ea, ?Eb; try reflexivity.
  apply String.eqb_eq in Ea, Eb. congruence.
Qed.

(** X9: image results for two different segment ids give the same state
    in either order of arrival. *)
Theorem image_results_commute a b ua ub st :
  a <> b ->
  image_resolved a ua (image_resolved b ub st) =
  image_resolved b ub (image_resolved a ua st).
Proof.
  intros Hab. unfold image_resolved.
  destruct ua as [u|], ub as [v|]; try reflexivity;
    destruct (String.eqb u "") eqn:Eu; try reflexivity;
    try (destruct (String.eqb v "") eqn:Ev; try reflexivity).
  simpl. rewrite patch_image_commute by exact Hab. reflexivity.
Qed.

Lemma image_results_commute_witness :
  "20" <> "init" /\
  image_resolved "20" (Some "data:image/png;base64,AA")
    (image_resolved "init" (Some "data:image/png;base64,BB") (app sample_session)) =
  image_resolved "init" (Some "data:image/png;base64,BB")
    (image_resolved "20" (Some "data:image/png;base64,AA") (app sample_session)).
Proof.
  split; [discriminate|]. apply image_results_commute. discriminate.
Defined.

(** X10: a later image result for a segment replaces an earlier one: the
    state is as if only the later one had arrived. *)
Theorem later_image_result_wins id u v st :
  u <> "" ->
  image_resolved id (Some u) (image_resolved id v st) =
  image_resolved id (Some u) st.
Proof.
  intros Hu. apply String.eqb_neq in Hu. unfold image_resolved.
  rewrite Hu. destruct v as [v|]; [|reflexivity].
  destruct (String.eqb v ""); [reflexivity|]. simpl. f_equal.
  unfold patch_image. rewrite map_map. apply map_ext. intros seg.
  destruct (String.eqb (seg_id seg) id) eqn:E; simpl; rewrite ?E; reflexivity.
Qed.

Lemma later_image_result_wins_witness :
  "data:image/png;base64,AA" <> "" /\
  image_resolved "20" (Some "data:image/png;base64,AA")
    (image_resolved "20" (Some "data:image/png;base64,BB") (app sample_session)) =
  image_resolved "20" (Some "data:image/png;base64,AA") (app sample_session).
Proof.
  split; [discriminate|]. apply later_image_result_wins. discriminate.
Defined.

(** *** A whole turn *)

(** X11: a turn taken from an idle session appends exactly two segments,
    the action as a user segment and then the narrative with its choices
    and no image yet; it applies the delta, shows the new choices and
    leaves the session idle. *)
Theorem turn_appends_two_segments s a t1 t2 r t3 t4 :
  loading (app s) = false ->
  let s' := run s [EvSubmit a t1 t2; EvStoryDone r t3 t4] in
  (exists u n,
     storyLog (app s') = storyLog (app s) ++ [u; n] /\
     is_user u = true /\ text u = a /\ choices u = [] /\
     is_user n = false /\ text n = narrative r /\
     choices n = suggested_choices r /\ imageUrl n = None) /\
  gameState (app s') = update_game_state r (gameState (app s)) /\
  currentChoices (app s') = suggested_choices r /\
  loading (app s') = false /\ pending_turn s' = None.
Proof.
  intros L s'. subst s'. simpl. rewrite L. simpl.
  unfold submit_action. rewrite L. simpl.
  split; [|repeat split].
  eexists _, _. split; [rewrite <- app_assoc; reflexivity|].
  repeat split.
Qed.

Lemma turn_appends_two_segments_witness :
  loading (app (started_session NoAiStudio 0)) = false /\
  currentChoices (app (run (started_session NoAiStudio 0)
    [EvSubmit "Search the room" 1 1; EvStoryDone fallback_story 2 2])) =
  ["Try again"].
Proof.
  split; [reflexivity|].
  apply (turn_appends_two_segments (started_session NoAiStudio 0)
           "Search the room" 1 1 fallback_story 2 2).
  reflexivity.
Defined.

(** *** Segment ids *)

Lemma list_ascii_of_string_append s1 s2 :
  list_ascii_of_string (s1 ++ s2)%string =
  list_ascii_of_string s1 ++ list_ascii_of_string s2.
Proof. induction s1 as [|c s1 IH]; simpl; [reflexivity|]. now rewrite IH. Qed.

Lemma string_length_append s1 s2 :
  String.length (s1 ++ s2)%string = String.length s1 + String.length s2.
Proof. induction s1 as [|c s1 IH]; simpl; [reflexivity|]. now rewrite IH. Qed.

Lemma digits_of_N_chars fuel n acc :
  forallb number_char (list_ascii_of_string acc) = true ->
  forallb number_char (list_ascii_of_string (digits_of_N fuel n acc)) = true.
Proof.
  revert n acc. induction fuel as [|fuel IH]; intros n acc Hacc; simpl; [exact Hacc|].
  assert (Hd : number_char (ascii_of_N (48 + n mod 10)) = true).
  { assert (Hk : (n mod 10 < 10)%N) by (apply N.mod_lt; discriminate).
    generalize dependent (n mod 10)%N. intros k Hk.
    unfold number_char. rewrite N_ascii_embedding by lia.
    apply orb_true_intro. left. apply andb_true_intro.
    split; apply N.leb_le; lia. }
  assert (Hc : forallb number_char
                (list_ascii_of_string (String (ascii_of_N (48 + n mod 10)) acc)) = true).
  { change (number_char (ascii_of_N (48 + n mod 10)) &&
            forallb number_char (list_ascii_of_string acc) = true).
    rewrite Hd. exact Hacc. }
  destruct (n <? 10)%N; [exact Hc|apply IH, Hc].
Qed.

Lemma string_of_Z_chars z :
  forallb number_char (list_ascii_of_string (string_of_Z z)) = true.
Proof.
  unfold string_of_Z.
  assert (H := digits_of_N_chars (S (N.size_nat (Z.abs_N z))) (Z.abs_N z) ""
                 eq_refl).
  destruct (z <? 0)%Z; [simpl; exact H|exact H].
Qed.

Lemma user_id_not_narrative_id t t' :
  (string_of_Z t ++ "-user")%string <> "init" /\
  (string_of_Z t ++ "-user")%string <> string_of_Z t'.
Proof.
  split.
  - intros H. apply (f_equal String.length) in H.
    rewrite string_length_append in H. simpl in H. lia.
  - intros H. assert (Hc := string_of_Z_chars t').
    rewrite <- H, list_ascii_of_string_append, forallb_app in Hc.
    apply andb_true_iff in Hc as [_ Hc]. discriminate Hc.
Qed.

Lemma ids_shaped w now es :
  Forall id_shape (storyLog (app (run (started_session w now) es))).
Proof.
  apply (run_preserves (fun s => Forall id_shape (storyLog (app s)))).
  - intros s [a t1 t2|r t1 t2|id u|r]; simpl; intros H.
    + destruct (loading (app s)) eqn:L; [exact H|].
      unfold submit_action. rewrite L. simpl.
      apply Forall_app. split; [exact H|]. constructor; [|constructor].
      unfold id_shape. simpl. eexists; reflexivity.
    + destruct (pending_turn s); [|exact H]. simpl.
      apply Forall_app. split; [exact H|]. constructor; [|constructor].
      unfold id_shape. simpl. right. eexists; reflexivity.
    + unfold image_resolved. destruct u as [url|]; [|exact H].
      destruct (String.eqb url ""); [exact H|]. simpl.
      unfold patch_image. apply Forall_map.
      eapply Forall_impl; [|exact H]. intros seg Hs.
      destruct (String.eqb (seg_id seg) id); [|exact Hs].
      unfold id_shape in *. exact Hs.
    + exact H.
  - unfold started_session, init_app, checkAndRequestApiKey.
    destruct w as [|[|]]; simpl;
      (apply Forall_cons; [unfold id_shape; simpl; left; reflexivity|apply Forall_nil]).
Qed.

(** X12: in every session reached from start-up, no action segment shares
    its id with a narrative segment: ids built from [Date.now()] can only
    collide among segments of the same kind. *)
Theorem user_and_narrative_ids_distinct w now es s1 s2 :
  let log := storyLog (app (run (started_session w now) es)) in
  In s1 log -> In s2 log -> is_user s1 = true -> is_user s2 = false ->
  seg_id s1 <> seg_id s2.
Proof.
  intros log H1 H2 U1 U2.
  assert (Hs := ids_shaped w now es).
  assert (S1 := proj1 (Forall_forall _ _) Hs s1 H1).
  assert (S2 := proj1 (Forall_forall _ _) Hs s2 H2).
  unfold id_shape in S1, S2. rewrite U1 in S1. rewrite U2 in S2.
  destruct S1 as [t ->].
  destruct S2 as [->|[t' ->]].
  - exact (proj1 (user_id_not_narrative_id t t)).
  - exact (proj2 (user_id_not_narrative_id t t')).
Qed.

Lemma user_and_narrative_ids_distinct_witness :
  let log := storyLog (app sample_session) in
  In (nth 1 log (initial_segment 0)) log /\ In (nth 2 log (initial_segment 0)) log /\
  seg_id (nth 1 log (initial_segment 0)) <> seg_id (nth 2 log (initial_segment 0)).
Proof.
  intros log. split; [simpl; tauto|]. split; [simpl; tauto|].
  apply (user_and_narrative_ids_distinct NoAiStudio 0
           [EvSubmit "Search the room" 10 10; EvStoryDone fallback_story 20 20]);
    simpl; tauto.
Defined.

(** *** The sidebar *)

(** X13: in every session reached from start-up, the sidebar shows the
    stored quest, never its "Explore the world..." fallback for an empty
    quest. *)
Theorem sidebar_shows_quest w now es :
  let gs := gameState (app (run (started_session w now) es)) in
  sidebar_quest gs = currentQuest gs.
Proof.
  intros gs. destruct (reachable_inv w now es) as [_ Hq].
  unfold sidebar_quest. fold gs in Hq.
  apply String.eqb_neq in Hq. rewrite Hq. reflexivity.
Qed.

(** *** Image extraction *)

(** The parts of one candidate: [content?.parts || []]. *)
Definition candidate_parts (c : Candidate) : list Part :=
  match content c with
  | Some ct => match parts ct with Some ps => ps | None => [] end
  | None => []
  end.

(** All parts of a response, over all its candidates. *)
Definition response_parts (r : ImageResponse) : list Part :=
  match candidates r with
  | Some cs => concat (map candidate_parts cs)
  | None => []
  end.

Definition candidate_count (r : ImageResponse) : nat :=
  match candidates r with Some cs => length cs | None => 0 end.

Lemma first_candidate_parts_single r :
  candidate_count r <= 1 -> first_candidate_parts r = response_parts r.
Proof.
  unfold candidate_count, first_candidate_parts, response_parts.
  destruct (candidates r) as [[|c [|c' cs]]|]; simpl; intros H;
    try reflexivity; try lia.
  rewrite app_nil_r. reflexivity.
Qed.

(** X14: for a response with at most one candidate (the request sets no
    candidate count), [generateSceneImage] gives null exactly when no part
    of the response has inline data, and otherwise the data URI built from
    the media type and payload of the first such part; a rejected request
    gives null. *)
Theorem scene_image_single_candidate prompt size r :
  candidate_count r <= 1 ->
  generateSceneImage prompt size ImageRejected = None /\
  (generateSceneImage prompt size (ImageResolved r) = None <->
   Forall (fun p => inlineData p = None) (response_parts r)) /\
  (forall pre p ps d,
     response_parts r = pre ++ p :: ps ->
     Forall (fun p => inlineData p = None) pre ->
     inlineData p = Some d ->
     generateSceneImage prompt size (ImageResolved r) =
       Some ("data:" ++ mimeType d ++ ";base64," ++ data d)%string).
Proof.
  intros Hc. simpl. rewrite first_candidate_parts_single by exact Hc.
  split; [reflexivity|]. split.
  - induction (response_parts r) as [|p ps IH]; simpl.
    + split; constructor.
    + destruct (inlineData p) eqn:E.
      * split; [discriminate|]. intros H. inversion H; congruence.
      * rewrite IH. split; [intros H; constructor; assumption|].
        intros H; inversion H; assumption.
  - intros pre p ps d Hr Hpre Hp. rewrite Hr. clear Hr.
    induction Hpre as [|q pre Hq _ IH]; simpl.
    + rewrite Hp. reflexivity.
    + rewrite Hq. exact IH.
Qed.

Lemma scene_image_single_candidate_witness :
  let r := {| candidates := Some [mkCandidate (Some (mkContent (Some
             [mkPart (Some "A cave") None;
              mkPart None (Some (mkInlineData "image/png" "iVBORw0KGgo="))])))] |} in
  candidate_count r <= 1 /\
  generateSceneImage "A dark cave" Size2K (ImageResolved r) <> None.
Proof.
  intros r. split; [subst r; unfold candidate_count; simpl; lia|].
  intros H.
  apply (scene_image_single_candidate "A dark cave" Size2K r) in H;
    [|subst r; unfold candidate_count; simpl; lia].
  inversion H as [|? ? _ H2]. inversion H2. discriminate.
Defined.
